(** * Reverse-tunnel agent pool and proxy-membership tracker

    A shallow embedding of package [reversetunnel]: the agent store
    ([agentStore]: [len], [add], [unsafeRemove], [remove], [poplen], [last]),
    the connected-proxies tracker ([ConnectedProxies]: [ProxyIDs],
    [updateProxyIDs]) and [getIDFromPrincipals]; and, beside it, the pure
    parts of the teleterm resource URIs, of the gRPC error translation of
    the teleterm API server, of the text output of [tctl] and of the
    review bot.

    Conventions.
    - A Go function that can panic at run time (an index out of range) is
      a function into [option]: [None] is the panic, and [l !! i] is the
      bounds-checked index expression [l[i]].
    - A Go [string] is a sequence of bytes: Rocq's [string] of 8-bit [ascii].
    - The mutexes only serialise the calls; every method is one atomic
      transition of the guarded fields and is modelled as a function from
      the state before the call to the result and the state after it. *)

From Stdlib Require Import ZArith Ascii String.
From stdpp Require Import base option list strings sorting.

Local Open Scope string_scope.
Local Open Scope list_scope.
Local Open Scope nat_scope.

(** ** The part of Go's [strings] package used by the source *)

Module GoStrings.

(** [strings.Split(s, sep)] for a separator of one byte, which is how the
    source calls it ([strings.Split(id, ".")]): the substrings of [s]
    between the occurrences of [sep], in order.  A string without [sep]
    gives the one-element slice [[s]]. *)
Fixpoint Split (s : string) (sep : ascii) : list string :=
  match s with
  | EmptyString => [EmptyString]
  | String c s' =>
      if Ascii.eqb c sep then EmptyString :: Split s' sep
      else match Split s' sep with
           | piece :: pieces => String c piece :: pieces
           | [] => [String c EmptyString]
           end
  end.

(** [strings.Contains(s, string(c))], used to state the properties. *)
Fixpoint ContainsByte (s : string) (c : ascii) : bool :=
  match s with
  | EmptyString => false
  | String c' s' => Ascii.eqb c' c || ContainsByte s' c
  end.

(** [strings.Join(elems, sep)] *)
Fixpoint Join (elems : list string) (sep : string) : string :=
  match elems with
  | [] => ""
  | a :: rest =>
      match rest with
      | [] => a
      | _ :: _ => a +:+ sep +:+ Join rest sep
      end
  end.

End GoStrings.

(** ** Principal identifier extraction *)

Definition dot : ascii := "."%char.

(** [func getIDFromPrincipals(principals []string) (string, bool)] *)
Definition getIDFromPrincipals (principals : list string) : option (string * bool) :=
  if decide (length principals = 0) then Some ("", false)
  else
    (* ID will always be the first principal. *)
    id ← principals !! 0;
    (* Return the uuid from the format "<uuid>.<cluster-name>". *)
    let split := GoStrings.Split id dot in
    if decide (1 < length split)
    then id' ← split !! 0; Some (id', true)
    else Some (id, true).

(** ** The part of [github.com/google/go-cmp/cmp] used by the source *)

(** A Go slice value as [cmp.Equal] sees it: the nil slice ([None]) or a
    non-nil slice with its elements ([Some l], possibly [Some []]). *)
Definition slice (A : Type) : Type := option (list A).

(** [len(x)] and the sequence of elements of a slice: a nil slice has none. *)
Definition elems {A : Type} (x : slice A) : list A := default [] x.

Module GoCmp.

(** Element-by-element, order-sensitive comparison of two string lists. *)
Fixpoint equalElems (x y : list string) : bool :=
  match x, y with
  | [], [] => true
  | a :: x', b :: y' => String.eqb a b && equalElems x' y'
  | _, _ => false
  end.

(** [cmp.Equal(x, y)] at type [[]string], with no options: slices are
    equal if they are both nil, or both non-nil with equal elements; an
    empty non-nil slice and a nil slice are not equal. *)
Definition Equal (x y : slice string) : bool :=
  match x, y with
  | None, None => true
  | Some a, Some b => equalElems a b
  | _, _ => false
  end.

End GoCmp.

(** ** Proxy membership tracker *)

(** [type ConnectedProxies struct]: the guarded field [ids].  The channel
    [change] is unbuffered, so it holds no state between calls. *)
Record ConnectedProxies : Type := { ids : slice string }.

(** The goroutine [updateProxyIDs] starts:
    [go func() { select { case p.change <- struct{}{}: default: } }()],
    one attempt to send on [change] that gives up when nobody receives. *)
Inductive goroutine : Type := notifyChange.

Definition NewConnectedProxies : ConnectedProxies := {| ids := None |}.

Definition ProxyIDs (p : ConnectedProxies) : slice string := ids p.

(** [func (p *ConnectedProxies) updateProxyIDs(ids []string)]: the state
    after the call and the goroutines the call started. *)
Definition updateProxyIDs (p : ConnectedProxies) (new : slice string)
  : ConnectedProxies * list goroutine :=
  if GoCmp.Equal (ids p) new then (p, [])
  else ({| ids := new |}, [notifyChange]).

(** A sequence of [updateProxyIDs] calls, oldest first, with everything
    they started. *)
Fixpoint publishAll (p : ConnectedProxies) (calls : list (slice string))
  : ConnectedProxies * list goroutine :=
  match calls with
  | [] => (p, [])
  | new :: calls' =>
      let '(p', started) := updateProxyIDs p new in
      let '(p'', started') := publishAll p' calls' in
      (p'', started ++ started')
  end.

(** ** Agent store *)

(** [*Agent]: compared by address only; address [0] is [nil]. *)
Definition AgentPtr : Type := N.
Definition nilAgent : AgentPtr := 0%N.

(** [type agentStore struct]: the guarded slice.  It is created non-nil
    and only measured, indexed, resliced and appended to. *)
Record agentStore : Type := { agents : list AgentPtr }.

Definition newAgentStore : agentStore := {| agents := [] |}.

(** [func (s *agentStore) len() int] *)
Definition len (s : agentStore) : Z := Z.of_nat (length (agents s)).

(** [func (s *agentStore) add(agent *Agent)] *)
Definition add (s : agentStore) (agent : AgentPtr) : agentStore :=
  {| agents := agents s ++ [agent] |}.

(** The loop [for i := range s.agents] of [unsafeRemove], over the indices
    still to visit. *)
Fixpoint unsafeRemove_range (range : list nat) (s : agentStore) (agent : AgentPtr)
  : option (bool * agentStore) :=
  match range with
  | [] => Some (false, s)
  | i :: range' =>
      a ← agents s !! i;
      if decide (a ≠ agent) then unsafeRemove_range range' s agent
      else Some (true, {| agents := take i (agents s) ++ drop (i + 1) (agents s) |})
  end.

(** [func (s *agentStore) unsafeRemove(agent *Agent) bool] *)
Definition unsafeRemove (s : agentStore) (agent : AgentPtr) : option (bool * agentStore) :=
  unsafeRemove_range (seq 0 (length (agents s))) s agent.

(** [func (s *agentStore) remove(agent *Agent) bool] *)
Definition remove (s : agentStore) (agent : AgentPtr) : option (bool * agentStore) :=
  unsafeRemove s agent.

(** [func (s *agentStore) poplen(l int)], returning [*Agent] and [bool] *)
Definition poplen (s : agentStore) (l : Z) : option ((AgentPtr * bool) * agentStore) :=
  if decide ((l < 0)%Z ∨ length (agents s) = 0) then Some ((nilAgent, false), s)
  else if decide (len s ≤ l)%Z then Some ((nilAgent, false), s)
  else
    agent ← agents s !! 0;
    Some ((agent, true), {| agents := drop 1 (agents s) |}).

(** [func (s *agentStore) last()], returning [*Agent] and [bool] *)
Definition last (s : agentStore) : option ((AgentPtr * bool) * agentStore) :=
  if decide (length (agents s) = 0) then Some ((nilAgent, false), s)
  else
    agent ← agents s !! (length (agents s) - 1);
    Some ((agent, true), s).

(** ** Histories of calls on one store *)

Inductive op : Type :=
| Add (agent : AgentPtr)
| Remove (agent : AgentPtr)
| PopLen (l : Z).

(** What a call returned. *)
Inductive ret : Type :=
| RetAdd
| RetRemove (found : bool)
| RetPopLen (agent : AgentPtr) (found : bool).

Definition step (s : agentStore) (o : op) : option (ret * agentStore) :=
  match o with
  | Add agent => Some (RetAdd, add s agent)
  | Remove agent => '(found, s') ← remove s agent; Some (RetRemove found, s')
  | PopLen l => '(agent, found, s') ← poplen s l; Some (RetPopLen agent found, s')
  end.

Fixpoint run (s : agentStore) (ops : list op) : option (list ret * agentStore) :=
  match ops with
  | [] => Some ([], s)
  | o :: ops' =>
      '(r, s') ← step s o;
      '(rs, s'') ← run s' ops';
      Some (r :: rs, s'')
  end.

(** A history of [add] and [remove] calls only: no [poplen]. *)
Definition no_evictions (ops : list op) : bool :=
  forallb (λ o, match o with PopLen _ => false | _ => true end) ops.

(** The number of [add] calls of a history, and the number of [remove]
    calls that returned [true] among the results. *)
Definition isAdd (o : op) : bool :=
  match o with Add _ => true | _ => false end.
Definition isRemoved (r : ret) : bool :=
  match r with RetRemove found => found | _ => false end.

Definition adds (ops : list op) : nat := length (filter isAdd ops).
Definition removed (rets : list ret) : nat := length (filter isRemoved rets).

(** Number of occurrences of a handle in the store. *)
Definition occurrences (agent : AgentPtr) (s : agentStore) : nat :=
  length (filter (λ a, a = agent) (agents s)).

(** *** Insertion indices

    Ghost instrumentation for the statements about age: the same history
    run on a store whose entries carry the position, in the history, of
    the [add] call that inserted them. *)

Definition entry : Type := nat * AgentPtr.

Fixpoint remove_entry (agent : AgentPtr) (es : list entry) : list entry :=
  match es with
  | [] => []
  | e :: es' => if decide (e.2 = agent) then es' else e :: remove_entry agent es'
  end.

Definition ghost_step (now : nat) (es : list entry) (o : op) : list entry :=
  match o with
  | Add agent => es ++ [(now, agent)]
  | Remove agent => remove_entry agent es
  | PopLen l =>
      if decide (0 ≤ l < Z.of_nat (length es))%Z then drop 1 es else es
  end.

Fixpoint ghost_run (now : nat) (es : list entry) (ops : list op) : list entry :=
  match ops with
  | [] => es
  | o :: ops' => ghost_run (S now) (ghost_step now es o) ops'
  end.

(** The entries that survive a history run from the empty store. *)
Definition survivors (ops : list op) : list entry := ghost_run 0 [] ops.

(** [e] is the oldest (newest) of [es]: no entry was inserted before
    (after) it. *)
Definition oldest_in (e : entry) (es : list entry) : Prop :=
  e ∈ es ∧ ∀ e', e' ∈ es → e.1 ≤ e'.1.
Definition newest_in (e : entry) (es : list entry) : Prop :=
  e ∈ es ∧ ∀ e', e' ∈ es → e'.1 ≤ e.1.

(** The order the store is meant to keep: entries by increasing insertion
    index, all inserted before [now]. *)
Definition older (e e' : entry) : Prop := e.1 < e'.1.
Definition by_age (now : nat) (es : list entry) : Prop :=
  StronglySorted older es ∧ Forall (λ e, e.1 < now) es.

(** *** Further counts over histories *)

(** The number of [poplen] calls that returned a handle. *)
Definition isPopped (r : ret) : bool :=
  match r with RetPopLen _ found => found | _ => false end.
Definition popped (rets : list ret) : nat := length (filter isPopped rets).

(** The handles a history adds, in the order of the [add] calls. *)
Definition added (ops : list op) : list AgentPtr :=
  omap (λ o, match o with Add agent => Some agent | _ => None end) ops.

(** The number of calls of a publishing sequence whose argument differs
    from the slice stored when the call is made. *)
Fixpoint changes (stored : slice string) (calls : list (slice string)) : nat :=
  match calls with
  | [] => 0
  | new :: calls' =>
      (if decide (stored = new :> option (list string)) then 0 else 1)
      + changes new calls'
  end.

(** ** Teleterm resource URIs ([lib/teleterm/api/uri]) *)

Module Uri.

(** [type ResourceURI struct { Path string }] *)
Record ResourceURI : Type := { Path : string }.

(** [fmt.Sprintf] with the verb [%v] at a string argument prints the
    string, so each format below is a concatenation. *)

Definition New (path : string) : ResourceURI := {| Path := path |}.

Definition NewClusterURI (clusterName : string) : ResourceURI :=
  {| Path := "/clusters/" +:+ clusterName |}.

Definition NewGatewayURI (id : string) : ResourceURI :=
  {| Path := "/gateways/" +:+ id |}.

(** The methods have value receivers: they return a new URI and leave
    the receiver as it is. *)
Definition AppendServer (r : ResourceURI) (id : string) : ResourceURI :=
  {| Path := Path r +:+ "/servers/" +:+ id |}.

Definition AppendLeafCluster (r : ResourceURI) (name : string) : ResourceURI :=
  {| Path := Path r +:+ "/leaves/" +:+ name |}.

Definition AppendKube (r : ResourceURI) (name : string) : ResourceURI :=
  {| Path := Path r +:+ "/kubes/" +:+ name |}.

Definition AppendDB (r : ResourceURI) (name : string) : ResourceURI :=
  {| Path := Path r +:+ "/dbs/" +:+ name |}.

Definition AddGateway (r : ResourceURI) (id : string) : ResourceURI :=
  {| Path := Path r +:+ "/gateways/" +:+ id |}.

Definition AppendApp (r : ResourceURI) (name : string) : ResourceURI :=
  {| Path := Path r +:+ "/apps/" +:+ name |}.

(** [func (r ResourceURI) String() string] *)
Definition ToString (r : ResourceURI) : string := Path r.

End Uri.

(** ** gRPC error translation ([lib/teleterm/apiserver]) *)

Module Apiserver.










End Apiserver.

(** ** Network restrictions as text ([tool/tctl/common]) *)

Module Tctl.

(** [types.AddressCondition] and the two lists a
    [types.NetworkRestrictions] gives. *)
Record AddressCondition : Type := { CIDR : string }.
Record NetworkRestrictions : Type := {
  GetAllow : list AddressCondition;
  GetDeny : list AddressCondition
}.

Section Writer.
(** An [io.Writer] with state [W]: [Write] gives the state after the call
    and the error it returned ([None] is [nil]).  [Wrap] is [trace.Wrap] at
    a non-nil error. *)
Context {W E : Type}.
Variable Write : W → string → W * option E.
Variable Wrap : E → E.

(** [type writer struct { w io.Writer; err error }] *)
Record writer : Type := { w : W; err : option E }.

(** [func (w *writer) write(s string)] *)
Definition write (out : writer) (s : string) : writer :=
  match err out with
  | None => let '(w', e) := Write (w out) s in {| w := w'; err := e |}
  | Some _ => out
  end.

(** [func (c *netRestrictionsCollection) writeList] *)
Fixpoint writeList (conds : list AddressCondition) (out : writer) : writer :=
  match conds with
  | [] => out
  | a :: conds' =>
      let out := write out (CIDR a) in
      let out := write out (String "010" "") in
      writeList conds' out
  end.

(** [func (c *netRestrictionsCollection) writeText]: the writer after the
    call and the error returned. *)
Definition writeText (netRestricts : NetworkRestrictions) (w0 : W) : W * option E :=
  let out := {| w := w0; err := None |} in
  let out := write out ("ALLOW" +:+ String "010" "") in
  let out := writeList (GetAllow netRestricts) out in
  let out := write out (String "010" ("DENY" +:+ String "010" "")) in
  let out := writeList (GetDeny netRestricts) out in
  (w out, Wrap <$> err out).

End Writer.

(** A [bytes.Buffer] as [io.Writer]: [Write] appends and returns [nil]. *)
Definition bufferWrite {E : Type} (buf : string) (s : string) : string * option E :=
  (buf +:+ s, None).

(** The text of a list of conditions: each CIDR on a line of its own. *)
Fixpoint listText (conds : list AddressCondition) : string :=
  match conds with
  | [] => ""
  | a :: conds' => CIDR a +:+ String "010" (listText conds')
  end.

(** What the formatters read of [types.Rule] and [types.TeamMapping]. *)
Record Rule : Type := { Resources : list string; Verbs : list string }.
Record TeamMapping : Type := {
  Organization : string;
  Team : string;
  Logins : list string
}.

(** [func printActions(rules []types.Rule) string] *)
Definition printActions (rules : list Rule) : string :=
  let pairs :=
    foldl (λ pairs rule,
             pairs ++ [GoStrings.Join (Resources rule) "," +:+ ":"
                       +:+ GoStrings.Join (Verbs rule) ","])
          [] rules in
  GoStrings.Join pairs ",".

(** [func formatTeamsToLogins(mappings []types.TeamMapping) string] *)
Definition formatTeamsToLogins (mappings : list TeamMapping) : string :=
  let result :=
    foldl (λ result m,
             result ++ ["@" +:+ Organization m +:+ "/" +:+ Team m +:+ ": "
                        +:+ GoStrings.Join (Logins m) ", "])
          [] mappings in
  GoStrings.Join result ", ".

End Tctl.

(** ** Review bot ([.github/workflows/robot/internal/bot]) *)

Module Bot.

(** [func isBackport(unsafeBase string) bool] *)
Definition isBackport (unsafeBase : string) : bool :=
  if String.prefix "branch/v" unsafeBase then true else false.

End Bot.

(** *** Vocabulary for the statements about these modules *)


(** The strings [writeText] passes to [write], in order. *)
Definition listPieces (conds : list Tctl.AddressCondition) : list string :=
  flat_map (λ a, [Tctl.CIDR a; String "010" ""]) conds.
Definition textPieces (netRestricts : Tctl.NetworkRestrictions) : list string :=
  ["ALLOW" +:+ String "010" ""] ++ listPieces (Tctl.GetAllow netRestricts)
  ++ [String "010" ("DENY" +:+ String "010" "")]
  ++ listPieces (Tctl.GetDeny netRestricts).

(** ** Lemmas on [Split] *)

Section SplitFacts.
Import GoStrings.

Lemma Split_nonempty s sep : Split s sep ≠ [].
Proof.
  destruct s as [|c s]; simpl; [done|].
  destruct (Ascii.eqb c sep); [done|].
  by destruct (Split s sep).
Qed.

(** Without the separator the string comes back whole. *)
Lemma Split_absent s sep :
  ContainsByte s sep = false → Split s sep = [s].
Proof.
  induction s as [|c s IH]; simpl; [done|].
  destruct (Ascii.eqb c sep); simpl; [done|].
  intros H. by rewrite (IH H).
Qed.

(** With the separator there are at least two pieces, and the first one
    is the separator-free prefix in front of its first occurrence. *)
Lemma Split_present s sep :
  ContainsByte s sep = true →
  ∃ a b pieces,
    s = a +:+ String sep b ∧ ContainsByte a sep = false ∧
    Split s sep = a :: pieces ∧ pieces ≠ [].
Proof.
  induction s as [|c s IH]; simpl; [done|].
  destruct (Ascii.eqb_spec c sep) as [->|Hne]; simpl.
  - intros _. exists "", s, (Split s sep).
    split_and!; [done..|apply Split_nonempty].
  - intros H. destruct (IH H) as (a & b & pieces & -> & Ha & -> & Hp).
    exists (String c a), b, pieces. simpl.
    destruct (Ascii.eqb_spec c sep); [done|]. by rewrite Ha.
Qed.

(** The decomposition in front of the first separator is unique. *)
Lemma first_sep_unique a b a' b' sep :
  ContainsByte a sep = false → ContainsByte a' sep = false →
  a +:+ String sep b = a' +:+ String sep b' → a = a'.
Proof.
  revert a'. induction a as [|c a IH]; intros [|c' a']; simpl; try done.
  - intros _ H [= <- _]. by rewrite Ascii.eqb_refl in H.
  - intros H _ [= -> _]. by rewrite Ascii.eqb_refl in H.
  - intros [_ Ha]%orb_false_elim [_ Ha']%orb_false_elim Heq.
    change (String c (a +:+ String sep b) = String c' (a' +:+ String sep b')) in Heq.
    injection Heq as -> Heq. f_equal. by apply IH.
Qed.
End SplitFacts.

(** The identifier [getIDFromPrincipals] computes from the first principal. *)
Lemma getIDFromPrincipals_cons p rest :
  getIDFromPrincipals (p :: rest) =
    Some (if GoStrings.ContainsByte p dot
          then default p (head (GoStrings.Split p dot)) else p, true).
Proof.
  unfold getIDFromPrincipals. simpl.
  destruct (GoStrings.ContainsByte p dot) eqn:Hdot.
  - destruct (Split_present _ _ Hdot) as (a & b & pieces & _ & _ & -> & Hp).
    by destruct pieces.
  - by rewrite (Split_absent _ _ Hdot).
Qed.

(** C2: extraction fails exactly on the empty list; on a non-empty list it
    succeeds with the first principal, cut in front of its first ['.'] when
    it has one; the three scenarios of the specification. *)
Theorem getIDFromPrincipals_contract :
  (∀ principals : list string,
     snd <$> getIDFromPrincipals principals = Some false ↔ principals = []) ∧
  (∀ (p : string) (rest : list string),
     ∃ id, getIDFromPrincipals (p :: rest) = Some (id, true) ∧
       if GoStrings.ContainsByte p dot
       then ∃ suffix, p = id +:+ String dot suffix ∧
                      GoStrings.ContainsByte id dot = false
       else id = p) ∧
  getIDFromPrincipals ["abc123.cluster-a"; "other"] = Some ("abc123", true) ∧
  getIDFromPrincipals [] = Some ("", false) ∧
  getIDFromPrincipals ["xyz"] = Some ("xyz", true).
Proof.
  split_and!; try reflexivity.
  - intros [|p rest]; [done|].
    rewrite getIDFromPrincipals_cons. simpl. split; [by intros [=]|done].
  - intros p rest. rewrite getIDFromPrincipals_cons.
    destruct (GoStrings.ContainsByte p dot) eqn:Hdot; [|by exists p].
    destruct (Split_present _ _ Hdot) as (a & b & pieces & Hp & Ha & HS & _).
    exists a. rewrite HS. simpl. split; [done|]. by exists b.
Qed.

(** C9: a first principal that begins with ['.'] gives the empty
    identifier together with success. *)
Theorem getIDFromPrincipals_leading_dot :
  ∀ (cluster : string) (rest : list string),
    getIDFromPrincipals (String dot cluster :: rest) = Some ("", true).
Proof.
  intros cluster rest. rewrite getIDFromPrincipals_cons. simpl.
  by destruct (GoStrings.Split cluster dot).
Qed.

(** ** The proxy membership tracker *)

Section Tracker.
Import GoCmp.

Lemma equalElems_eq x y : equalElems x y = true ↔ x = y.
Proof.
  revert y. induction x as [|a x IH]; intros [|b y]; simpl; try done.
  rewrite andb_true_iff, IH. split.
  - intros [->%String.eqb_eq ->]. done.
  - intros [= -> ->]. by rewrite String.eqb_refl.
Qed.

(** On the model of slices, [cmp.Equal] decides equality: same nil-ness
    and the same elements in the same order. *)
Lemma Equal_eq x y : Equal x y = true ↔ x = y.
Proof.
  destruct x as [a|], y as [b|]; simpl; try done.
  rewrite equalElems_eq. split; congruence.
Qed.

Lemma Equal_refl x : Equal x x = true.
Proof. by apply Equal_eq. Qed.

(** Whichever branch a call takes, it leaves its argument stored. *)
Lemma updateProxyIDs_stored p new : ProxyIDs (updateProxyIDs p new).1 = new.
Proof.
  unfold updateProxyIDs. destruct (Equal (ids p) new) eqn:E; simpl; [|done].
  by apply Equal_eq.
Qed.

Lemma publishAll_app p calls calls' :
  (publishAll p (calls ++ calls')).1 = (publishAll (publishAll p calls).1 calls').1.
Proof.
  revert p. induction calls as [|new calls IH]; intros p; simpl; [done|].
  destruct (updateProxyIDs p new) as [p1 g1]. specialize (IH p1).
  destruct (publishAll p1 (calls ++ calls')) as [p2 g2].
  destruct (publishAll p1 calls) as [p3 g3]. simpl in *.
  by destruct (publishAll p3 calls') as [p4 g4].
Qed.

End Tracker.

(** The nil slice of a new tracker and an empty non-nil slice have the same
    elements, yet publishing the second replaces the first and starts the
    notification. *)
Lemma updateProxyIDs_nil_then_empty :
  elems (ids NewConnectedProxies) = elems (Some []) ∧
  updateProxyIDs NewConnectedProxies (Some []) = ({| ids := Some [] |}, [notifyChange]).
Proof. done. Qed.

(** C3, as stated, fails: element-by-element equality of the stored and the
    new sequence does not make [updateProxyIDs] a no-op. *)
Lemma updateProxyIDs_same_elements_not_noop :
  ¬ ∀ (p : ConnectedProxies) (new : slice string),
      elems (ids p) = elems new → updateProxyIDs p new = (p, []).
Proof.
  intros H. destruct updateProxyIDs_nil_then_empty as [He Hu].
  specialize (H _ _ He). rewrite Hu in H. discriminate H.
Qed.

(** C3, amended: [updateProxyIDs] compares with [cmp.Equal], which holds
    exactly when both slices are nil or both are non-nil with the same
    elements in the same order; then the call changes nothing and starts
    no notification.  Publishing the same slice twice in a row starts
    nothing at the second call. *)
Theorem updateProxyIDs_idempotent :
  ∀ (p : ConnectedProxies) (new : slice string),
    (GoCmp.Equal (ids p) new = true ↔ ids p = new) ∧
    (GoCmp.Equal (ids p) new = true → updateProxyIDs p new = (p, [])) ∧
    (let p1 := (updateProxyIDs p new).1 in updateProxyIDs p1 new = (p1, [])) ∧
    (∀ (calls : list (slice string)),
       let p1 := (publishAll p (calls ++ [new])).1 in
       publishAll p1 [new] = (p1, [])).
Proof.
  intros p new.
  assert (Hnoop : ∀ q, ProxyIDs q = new → updateProxyIDs q new = (q, [])).
  { intros q Hq. unfold updateProxyIDs.
    replace (ids q) with new by done. by rewrite Equal_refl. }
  split_and!.
  - apply Equal_eq.
  - intros E. apply Hnoop. by apply Equal_eq.
  - simpl. apply Hnoop, updateProxyIDs_stored.
  - intros calls. simpl. rewrite Hnoop; [done|].
    rewrite publishAll_app. simpl.
    pose proof (updateProxyIDs_stored (publishAll p calls).1 new) as Hs.
    by destruct (updateProxyIDs (publishAll p calls).1 new).
Qed.

(** The amended C3 at a tracker that stores [["p1"; "p2"]]. *)
Lemma updateProxyIDs_idempotent_witness :
  updateProxyIDs {| ids := Some ["p1"; "p2"] |} (Some ["p1"; "p2"])
  = ({| ids := Some ["p1"; "p2"] |}, []).
Proof.
  refine (proj1 (proj2 (updateProxyIDs_idempotent
            {| ids := Some ["p1"; "p2"] |} (Some ["p1"; "p2"]))) _).
  reflexivity.
Defined.

(** C4: after every non-empty sequence of [updateProxyIDs] calls,
    [ProxyIDs] returns the argument of the most recent one; after A, B, C
    it returns C. *)
Theorem ProxyIDs_most_recent :
  (∀ (p : ConnectedProxies) (calls : list (slice string)) (new : slice string),
     ProxyIDs (publishAll p (calls ++ [new])).1 = new) ∧
  (∀ (p : ConnectedProxies) (A B C : slice string),
     ProxyIDs (publishAll p [A; B; C]).1 = C).
Proof.
  assert (H : ∀ p calls new, ProxyIDs (publishAll p (calls ++ [new])).1 = new).
  { intros p calls new. rewrite publishAll_app. simpl.
    pose proof (updateProxyIDs_stored (publishAll p calls).1 new) as Hs.
    by destruct (updateProxyIDs (publishAll p calls).1 new). }
  split; [exact H|].
  intros p A B C. apply (H p [A; B] C).
Qed.

(** ** The agent store: [remove] *)

Section Remove.
Implicit Types (s : agentStore) (h : AgentPtr) (l : list AgentPtr).

(** The loop reaches the first occurrence of [h] and cuts it out. *)
Lemma unsafeRemove_range_found l1 l2 h n i :
  h ∉ l1 → i ≤ length l1 → i + n = length (l1 ++ (h :: l2)) →
  unsafeRemove_range (seq i n) {| agents := l1 ++ (h :: l2) |} h
  = Some (true, {| agents := l1 ++ l2 |}).
Proof.
  intros Hh. revert i. induction n as [|n IH]; intros i Hi Hn.
  { rewrite length_app in Hn. simpl in Hn. lia. }
  simpl. destruct (decide (i = length l1)) as [->|Hne].
  - rewrite list_lookup_middle by done. simpl.
    case_decide; [done|].
    by rewrite take_app_length, drop_app_add.
  - assert (Hlt : i < length l1) by lia.
    destruct (lookup_lt_is_Some_2 l1 i Hlt) as [a Ha].
    rewrite lookup_app_l, Ha by done. simpl.
    assert (a ≠ h) by (intros ->; apply Hh; by eapply list_elem_of_lookup_2).
    case_decide; [|done]. apply IH; lia.
Qed.

(** Without an occurrence of [h] the loop runs to its end. *)
Lemma unsafeRemove_range_absent l h n i :
  h ∉ l → i + n ≤ length l →
  unsafeRemove_range (seq i n) {| agents := l |} h = Some (false, {| agents := l |}).
Proof.
  intros Hh. revert i. induction n as [|n IH]; intros i Hn; simpl; [done|].
  destruct (lookup_lt_is_Some_2 l i) as [a Ha]; [lia|].
  rewrite Ha. simpl.
  assert (a ≠ h) by (intros ->; apply Hh; by eapply list_elem_of_lookup_2).
  case_decide; [|done]. apply IH; lia.
Qed.

Lemma remove_found l1 l2 h :
  h ∉ l1 →
  remove {| agents := l1 ++ (h :: l2) |} h = Some (true, {| agents := l1 ++ l2 |}).
Proof.
  intros Hh. unfold remove, unsafeRemove.
  apply unsafeRemove_range_found; simpl; [done|lia|done].
Qed.

Lemma remove_absent s h : h ∉ agents s → remove s h = Some (false, s).
Proof.
  intros Hh. destruct s as [l]. unfold remove, unsafeRemove.
  apply unsafeRemove_range_absent; simpl in *; [done|lia].
Qed.

(** [remove] never panics, and these are its only two outcomes. *)
Lemma remove_cases s h :
  (∃ l1 l2, agents s = l1 ++ (h :: l2) ∧ (h ∉ l1) ∧
            remove s h = Some (true, {| agents := l1 ++ l2 |})) ∨
  ((h ∉ agents s) ∧ remove s h = Some (false, s)).
Proof.
  destruct (decide (h ∈ agents s)) as [Hin|Hout].
  - left. destruct (list_elem_of_split_l _ _ Hin) as (l1 & l2 & Hl & Hh).
    exists l1, l2. destruct s as [l]. simpl in *. subst l.
    by rewrite remove_found.
  - right. by rewrite remove_absent.
Qed.

End Remove.

(** C5: [remove] cuts out the first element identical to the handle,
    keeps the others in their order and returns [true]; when no element
    matches it returns [false] and leaves the store as it was. *)
Theorem remove_contract :
  ∀ (s : agentStore) (h : AgentPtr),
    (h ∈ agents s →
       ∃ l1 l2, agents s = l1 ++ (h :: l2) ∧ (h ∉ l1) ∧
                remove s h = Some (true, {| agents := l1 ++ l2 |})) ∧
    (h ∉ agents s → remove s h = Some (false, s)).
Proof.
  intros s h. split.
  - intros Hin. destruct (remove_cases s h) as [?|[Hout _]]; [done|]. by destruct Hout.
  - apply remove_absent.
Qed.

(** C5 on the store [[5; 7; 5; 9]]: removing [5] finds the first
    occurrence; removing [8] finds nothing. *)
Lemma remove_contract_witness :
  (∃ l1 l2, [5; 7; 5; 9]%N = l1 ++ (5%N :: l2) ∧ (5%N ∉ l1) ∧
            remove {| agents := [5; 7; 5; 9]%N |} 5%N
            = Some (true, {| agents := l1 ++ l2 |})) ∧
  remove {| agents := [5; 7; 5; 9]%N |} 8%N
  = Some (false, {| agents := [5; 7; 5; 9]%N |}).
Proof.
  split.
  - apply (remove_contract {| agents := [5; 7; 5; 9]%N |} 5%N).
    simpl. apply list_elem_of_here.
  - apply (remove_contract {| agents := [5; 7; 5; 9]%N |} 8%N).
    simpl. apply not_elem_of_cons. split; [done|].
    apply not_elem_of_cons. split; [done|].
    apply not_elem_of_cons. split; [done|].
    apply not_elem_of_cons. split; [done|]. apply not_elem_of_nil.
Defined.

(** ** Duplicates *)

Section Occurrences.
Implicit Types (s : agentStore) (h : AgentPtr).

Lemma occurrences_absent s h : h ∉ agents s → occurrences h s = 0.
Proof.
  unfold occurrences. destruct s as [l]. simpl.
  induction l as [|a l IH]; [done|].
  intros [Hne Hl]%not_elem_of_cons.
  rewrite filter_cons_False by congruence. by apply IH.
Qed.

(** [add] does not deduplicate. *)
Lemma occurrences_add s h : occurrences h (add s h) = S (occurrences h s).
Proof.
  unfold occurrences, add. simpl.
  rewrite filter_app, length_app, filter_cons_True by done. simpl. lia.
Qed.

(** A call that finds the handle sheds exactly one occurrence. *)
Lemma remove_sheds_one s h n :
  occurrences h s = S n →
  ∃ s1, remove s h = Some (true, s1) ∧ occurrences h s1 = n.
Proof.
  intros Hocc.
  destruct (remove_cases s h) as [(l1 & l2 & Hl & Hh & Hr)|[Hout _]].
  - eexists. split; [exact Hr|].
    unfold occurrences in *. simpl. rewrite Hl in Hocc.
    rewrite filter_app, length_app in *.
    rewrite filter_cons_True in Hocc by done. simpl in Hocc. lia.
  - rewrite occurrences_absent in Hocc by done. discriminate.
Qed.

End Occurrences.

(** C10: with two occurrences of [h] in the store, a first [remove h]
    returns [true] and leaves exactly one of them, and a second one
    returns [true] and removes that one too. *)
Theorem remove_duplicates_one_per_call :
  ∀ (s : agentStore) (h : AgentPtr),
    occurrences h s = 2 →
    ∃ s1 s2,
      remove s h = Some (true, s1) ∧ occurrences h s1 = 1 ∧
      remove s1 h = Some (true, s2) ∧ occurrences h s2 = 0.
Proof.
  intros s h H2.
  destruct (remove_sheds_one s h 1 H2) as (s1 & Hr1 & H1).
  destruct (remove_sheds_one s1 h 0 H1) as (s2 & Hr2 & H0).
  by exists s1, s2.
Qed.

(** C10 on a new store to which the handle [7] was added twice. *)
Lemma remove_duplicates_witness :
  ∃ s1 s2,
    remove (add (add newAgentStore 7%N) 7%N) 7%N = Some (true, s1) ∧
    occurrences 7%N s1 = 1 ∧
    remove s1 7%N = Some (true, s2) ∧ occurrences 7%N s2 = 0.
Proof.
  apply (remove_duplicates_one_per_call (add (add newAgentStore 7%N) 7%N) 7%N).
  reflexivity.
Defined.

(** ** Size *)

Section Size.
Implicit Types (s : agentStore) (h : AgentPtr).

Lemma len_add s h : len (add s h) = (len s + 1)%Z.
Proof. unfold len, add. simpl. rewrite length_app. simpl. lia. Qed.

Lemma remove_len s h :
  ∃ found s', remove s h = Some (found, s') ∧
              len s' = (len s - if found then 1 else 0)%Z.
Proof.
  destruct (remove_cases s h) as [(l1 & l2 & Hl & Hh & Hr)|[Hout Hr]].
  - exists true. eexists. split; [exact Hr|].
    unfold len. simpl. rewrite Hl, !length_app. simpl. lia.
  - exists false, s. split; [done|lia].
Qed.

(** A history of [add] and [remove] calls runs to its end, and the size
    moves by the adds and the removes that found their handle. *)
Lemma run_len ops :
  no_evictions ops = true →
  ∀ s, ∃ rets s', run s ops = Some (rets, s') ∧
                  len s' = (len s + Z.of_nat (adds ops) - Z.of_nat (removed rets))%Z.
Proof.
  induction ops as [|o ops IH]; intros Hops s.
  { exists [], s. split; [done|]. unfold adds, removed. simpl. lia. }
  simpl in Hops. apply andb_true_iff in Hops as [Ho Hops].
  specialize (IH Hops). destruct o as [h|h|l]; [| |done].
  - destruct (IH (add s h)) as (rets & s' & Hrun & Hlen).
    exists (RetAdd :: rets), s'. simpl. rewrite Hrun. simpl. split; [done|].
    rewrite Hlen, len_add. unfold adds, removed.
    rewrite filter_cons_True by done. rewrite filter_cons_False by (simpl; auto).
    simpl length. lia.
  - destruct (remove_len s h) as (found & s1 & Hrm & Hlen1).
    destruct (IH s1) as (rets & s' & Hrun & Hlen).
    exists (RetRemove found :: rets), s'. simpl. rewrite Hrm. simpl.
    rewrite Hrun. simpl. split; [done|].
    rewrite Hlen, Hlen1. unfold adds, removed.
    rewrite (filter_cons_False _ (Remove h)) by (simpl; auto).
    destruct found.
    + rewrite filter_cons_True by done. simpl length. lia.
    + rewrite filter_cons_False by (simpl; auto). lia.
Qed.

End Size.

(** C6: after every sequence of [add] and [remove] calls on a store created
    empty, [len] is the number of [add] calls minus the number of [remove]
    calls that returned [true]. *)
Theorem len_adds_minus_removed :
  ∀ ops : list op,
    no_evictions ops = true →
    ∃ rets s,
      run newAgentStore ops = Some (rets, s) ∧
      len s = (Z.of_nat (adds ops) - Z.of_nat (removed rets))%Z.
Proof.
  intros ops Hops.
  destruct (run_len ops Hops newAgentStore) as (rets & s & Hrun & Hlen).
  exists rets, s. split; [done|]. rewrite Hlen. unfold len. simpl. lia.
Qed.

(** C6 on add 1, add 2, remove 3, remove 1, add 4: three adds, one
    successful remove. *)
Lemma len_adds_minus_removed_witness :
  ∃ rets s,
    run newAgentStore [Add 1%N; Add 2%N; Remove 3%N; Remove 1%N; Add 4%N]
    = Some (rets, s) ∧
    len s = (Z.of_nat (adds [Add 1%N; Add 2%N; Remove 3%N; Remove 1%N; Add 4%N])
             - Z.of_nat (removed rets))%Z.
Proof.
  apply (len_adds_minus_removed [Add 1%N; Add 2%N; Remove 3%N; Remove 1%N; Add 4%N]).
  reflexivity.
Defined.

(** ** [poplen] and [last] on a store state *)

Section Ends.
Implicit Types (s : agentStore) (h : AgentPtr) (l : Z).

Lemma poplen_found s l h rest :
  agents s = h :: rest → (0 ≤ l < len s)%Z →
  poplen s l = Some ((h, true), {| agents := rest |}).
Proof.
  intros Hs Hl. unfold poplen, len in *. rewrite Hs in *. simpl in *.
  case_decide; [lia|]. case_decide; [lia|]. done.
Qed.

Lemma poplen_not_found s l :
  ¬ (0 ≤ l < len s)%Z → poplen s l = Some ((nilAgent, false), s).
Proof.
  intros Hl. unfold poplen, len in *.
  case_decide; [done|]. case_decide; [done|]. lia.
Qed.

(** [poplen] never panics, and these are its only two outcomes. *)
Lemma poplen_cases s l :
  ((0 ≤ l < len s)%Z ∧
   ∃ h rest, agents s = h :: rest ∧
             poplen s l = Some ((h, true), {| agents := rest |})) ∨
  (¬ (0 ≤ l < len s)%Z ∧ poplen s l = Some ((nilAgent, false), s)).
Proof.
  destruct (decide (0 ≤ l < len s)%Z) as [Hl|Hl].
  - left. split; [done|]. destruct (agents s) as [|h rest] eqn:Hs.
    { unfold len in Hl. rewrite Hs in Hl. simpl in Hl. lia. }
    exists h, rest. split; [done|]. by apply poplen_found.
  - right. split; [done|]. by apply poplen_not_found.
Qed.

Lemma last_empty s : agents s = [] → last s = Some ((nilAgent, false), s).
Proof. intros Hs. unfold last. by rewrite Hs. Qed.

Lemma last_snoc_found s front h :
  agents s = front ++ [h] → last s = Some ((h, true), s).
Proof.
  intros Hs. unfold last. rewrite Hs, length_app. simpl.
  case_decide; [lia|].
  replace (length front + 1 - 1) with (length front) by lia.
  by rewrite list_lookup_middle.
Qed.

End Ends.

(** ** Insertion order *)

Section Age.
Implicit Types (s : agentStore) (h : AgentPtr) (e : entry) (es : list entry).

Lemma remove_entry_incl h es e : e ∈ remove_entry h es → e ∈ es.
Proof.
  induction es as [|e0 es IH]; simpl; [done|].
  case_decide.
  - apply list_elem_of_further.
  - intros [->|He]%elem_of_cons; [apply list_elem_of_here|].
    apply list_elem_of_further, IH, He.
Qed.

Lemma remove_entry_sorted h es :
  StronglySorted older es → StronglySorted older (remove_entry h es).
Proof.
  induction 1 as [|e0 es Hes IH Hall]; simpl; [constructor|].
  case_decide; [done|]. constructor; [done|].
  rewrite Forall_forall in *. intros e He. by apply Hall, remove_entry_incl with h.
Qed.

Lemma by_age_step now es o : by_age now es → by_age (S now) (ghost_step now es o).
Proof.
  intros [Hsorted Hbound]. destruct o as [h|h|l]; simpl.
  - split.
    + apply StronglySorted_app_2; [|done|repeat constructor].
      intros e e' He ->%list_elem_of_singleton. unfold older. simpl.
      rewrite Forall_forall in Hbound. by apply Hbound.
    + apply Forall_app. split.
      * eapply Forall_impl; [done|]; simpl; lia.
      * apply Forall_singleton. simpl. lia.
  - split; [by apply remove_entry_sorted|].
    rewrite Forall_forall in *. intros e He.
    apply remove_entry_incl, Hbound in He. lia.
  - assert (by_age (S now) es) as Hes.
    { split; [done|]. eapply Forall_impl; [done|]; simpl; lia. }
    case_decide; [|done]. destruct Hes as [Hs Hb].
    destruct es as [|e0 es]; [done|]. simpl.
    split; [by inversion Hs|by inversion Hb].
Qed.

Lemma by_age_run ops now es :
  by_age now es → by_age (now + length ops) (ghost_run now es ops).
Proof.
  revert now es. induction ops as [|o ops IH]; intros now es Hes; simpl.
  - by rewrite Nat.add_0_r.
  - replace (now + S (length ops)) with (S now + length ops) by lia.
    by apply IH, by_age_step.
Qed.

(** Every entry of the instrumented run is an entry of the start or was
    inserted by the [add] call found at its index. *)
Lemma ghost_run_origin ops now es e :
  e ∈ ghost_run now es ops →
  e ∈ es ∨ ∃ i, e.1 = now + i ∧ ops !! i = Some (Add e.2).
Proof.
  revert now es. induction ops as [|o ops IH]; intros now es; simpl; [by left|].
  intros [He|(i & Hi & Ho)]%IH.
  - destruct o as [h|h|l]; simpl in He.
    + apply elem_of_app in He as [He| ->%list_elem_of_singleton]; [by left|].
      right. exists 0. simpl. split; [lia|done].
    + left. by eapply remove_entry_incl.
    + left. case_decide; [|done]. destruct es as [|e0 es]; [done|].
      by apply list_elem_of_further.
  - right. exists (S i). split; [lia|done].
Qed.

(** In a store kept by age the front entry is the oldest and the back
    entry the newest. *)
Lemma by_age_front now e es : by_age now (e :: es) → oldest_in e (e :: es).
Proof.
  intros [Hs _]. split; [apply list_elem_of_here|].
  inversion Hs as [|? ? _ Hall]; subst. rewrite Forall_forall in Hall.
  intros e' [->|He']%elem_of_cons; [done|].
  apply Hall in He'. unfold older in He'. lia.
Qed.

Lemma by_age_back now es e : by_age now (es ++ [e]) → newest_in e (es ++ [e]).
Proof.
  intros [Hs _]. split; [apply elem_of_app; right; apply list_elem_of_here|].
  intros e' [He'| ->%list_elem_of_singleton]%elem_of_app; [|done].
  assert (older e' e) as Hlt.
  { eapply StronglySorted_app_1_elem_of; [exact Hs|exact He'|apply list_elem_of_here]. }
  unfold older in Hlt. lia.
Qed.

(** *** The instrumented run follows the store *)

Lemma remove_entry_found es l1 l2 h :
  es.*2 = l1 ++ (h :: l2) → h ∉ l1 → (remove_entry h es).*2 = l1 ++ l2.
Proof.
  revert es. induction l1 as [|a l1 IH]; intros [|e es]; simpl; try done.
  - intros [= -> <-] _. by case_decide.
  - intros [= He Hes] [Hne Hh]%not_elem_of_cons.
    case_decide; [congruence|]. simpl. f_equal; [done|by apply IH].
Qed.

Lemma remove_entry_absent es h : h ∉ es.*2 → remove_entry h es = es.
Proof.
  induction es as [|e es IH]; simpl; [done|].
  intros [Hne Hh]%not_elem_of_cons. case_decide; [done|]. f_equal. by apply IH.
Qed.

Lemma step_erase now s es o :
  agents s = es.*2 →
  ∃ r s', step s o = Some (r, s') ∧ agents s' = (ghost_step now es o).*2.
Proof.
  intros Hs. destruct o as [h|h|l]; simpl.
  - eexists _, _. split; [done|]. simpl. by rewrite Hs, fmap_app.
  - destruct (remove_cases s h) as [(l1 & l2 & Hl & Hh & ->)|[Hout ->]]; simpl.
    + eexists _, _. split; [done|]. simpl.
      symmetry. apply remove_entry_found; [by rewrite <-Hs|done].
    + eexists _, _. split; [done|].
      rewrite remove_entry_absent; [done|by rewrite <-Hs].
  - assert (len s = Z.of_nat (length es)) as Hlen.
    { unfold len. by rewrite Hs, length_fmap. }
    destruct (poplen_cases s l) as [(Hl & h & rest & Hr & ->)|[Hl ->]]; simpl.
    + eexists _, _. split; [done|]. simpl.
      rewrite decide_True by lia. rewrite fmap_drop, <-Hs, Hr. done.
    + eexists _, _. split; [done|]. by rewrite decide_False by lia.
Qed.

Lemma run_erase ops now s es :
  agents s = es.*2 →
  ∃ rets s', run s ops = Some (rets, s') ∧ agents s' = (ghost_run now es ops).*2.
Proof.
  revert now s es. induction ops as [|o ops IH]; intros now s es Hs; simpl.
  { by exists [], s. }
  destruct (step_erase now s es o Hs) as (r & s1 & -> & Hs1). simpl.
  destruct (IH (S now) s1 _ Hs1) as (rets & s' & -> & Hs'). simpl.
  by exists (r :: rets), s'.
Qed.

(** From the empty store: the run succeeds, the store holds the handles of
    the survivors in their order, the survivors are kept by age, and each
    of them carries the index of the [add] call that inserted it. *)
Lemma run_survivors ops :
  ∃ rets s,
    run newAgentStore ops = Some (rets, s) ∧
    agents s = (survivors ops).*2 ∧
    by_age (length ops) (survivors ops) ∧
    ∀ e, e ∈ survivors ops → ops !! e.1 = Some (Add e.2).
Proof.
  destruct (run_erase ops 0 newAgentStore [] eq_refl) as (rets & s & Hrun & Hs).
  exists rets, s. split_and!; [done..| |].
  - apply (by_age_run ops 0 []). split; constructor.
  - intros e [He|(i & Hi & Ho)]%ghost_run_origin; [by apply elem_of_nil in He|].
    simpl in Hi. by rewrite Hi.
Qed.

End Age.

(** ** [poplen] *)

(** A store that holds one handle, asked to pop when it holds more than
    [-1]: it holds more, and [poplen] returns nothing. *)
Lemma poplen_minus_one :
  let s := {| agents := [7%N] |} in
  agents s ≠ [] ∧ (-1 < len s)%Z ∧ poplen s (-1) = Some ((nilAgent, false), s).
Proof. simpl. split_and!; done. Qed.

(** C1, as stated, fails: [poplen] does not return a handle whenever the
    store is non-empty and holds more than the threshold. *)
Lemma poplen_not_iff_over_threshold :
  ¬ ∀ (s : agentStore) (l : Z),
      (∃ h s', poplen s l = Some ((h, true), s')) ↔
      (agents s ≠ [] ∧ (l < len s)%Z).
Proof.
  intros H. destruct poplen_minus_one as (Hne & Hlt & Hpop).
  destruct (proj2 (H _ _) (conj Hne Hlt)) as (h & s' & Hh).
  rewrite Hpop in Hh. discriminate Hh.
Qed.

(** C1, amended: [poplen l] returns a handle if and only if [0 ≤ l] and the
    store holds more than [l] handles (so it is not empty); a zero
    threshold on a non-empty store pops, a negative threshold never does,
    an empty store never does; a successful pop returns the front handle,
    leaves the others in place, makes [len] one less, and after any
    history from the empty store the handle it returns is the survivor
    with the smallest insertion index. *)
Theorem poplen_contract :
  (∀ (s : agentStore) (l : Z),
     ((0 ≤ l < len s)%Z →
        ∃ h rest, agents s = h :: rest ∧
                  poplen s l = Some ((h, true), {| agents := rest |}) ∧
                  len {| agents := rest |} = (len s - 1)%Z) ∧
     (¬ (0 ≤ l < len s)%Z → poplen s l = Some ((nilAgent, false), s)) ∧
     (agents s ≠ [] → ∃ h s', poplen s 0 = Some ((h, true), s')) ∧
     ((l < 0)%Z → poplen s l = Some ((nilAgent, false), s)) ∧
     (agents s = [] → poplen s l = Some ((nilAgent, false), s))) ∧
  (∀ (ops : list op) (l : Z),
     ∃ rets s,
       run newAgentStore ops = Some (rets, s) ∧
       ((0 ≤ l < len s)%Z →
          ∃ e s', oldest_in e (survivors ops) ∧ ops !! e.1 = Some (Add e.2) ∧
                  poplen s l = Some ((e.2, true), s') ∧
                  len s' = (len s - 1)%Z)).
Proof.
  split.
  - intros s l. split_and!.
    + intros Hl. destruct (poplen_cases s l) as [(_ & h & rest & Hs & Hp)|[? _]]; [|done].
      exists h, rest. split_and!; [done..|]. unfold len. rewrite Hs. simpl. lia.
    + apply poplen_not_found.
    + intros Hne. destruct (agents s) as [|h rest] eqn:Hs; [done|].
      exists h, {| agents := rest |}. apply poplen_found; [done|].
      unfold len. rewrite Hs. simpl. lia.
    + intros Hl. apply poplen_not_found. lia.
    + intros Hs. apply poplen_not_found. unfold len. rewrite Hs. simpl. lia.
  - intros ops l.
    destruct (run_survivors ops) as (rets & s & Hrun & Hs & Hage & Horigin).
    exists rets, s. split; [done|]. intros Hl.
    destruct (poplen_cases s l) as [(_ & h & rest & Hh & Hp)|[? _]]; [|done].
    destruct (survivors ops) as [|e es] eqn:Hes.
    { simpl in Hs. congruence. }
    exists e, {| agents := rest |}. split_and!.
    + by eapply by_age_front.
    + apply Horigin, list_elem_of_here.
    + rewrite Hp. simpl in Hs. congruence.
    + unfold len. rewrite Hh. simpl. lia.
Qed.

(** The scenario of the specification: from the empty store, add [1], add
    [2]; [poplen 1] returns the handle [1], inserted at index [0], and
    leaves one handle; a second [poplen 1] returns nothing. *)
Lemma poplen_contract_witness :
  (∃ h rest, [1%N; 2%N] = h :: rest ∧
             poplen {| agents := [1%N; 2%N] |} 1 = Some ((h, true), {| agents := rest |}) ∧
             len {| agents := rest |} = (len {| agents := [1%N; 2%N] |} - 1)%Z) ∧
  poplen {| agents := [2%N] |} 1 = Some ((nilAgent, false), {| agents := [2%N] |}).
Proof.
  split.
  - refine (proj1 (proj1 poplen_contract {| agents := [1%N; 2%N] |} 1%Z) _).
    unfold len. simpl. lia.
  - refine (proj1 (proj2 (proj1 poplen_contract {| agents := [2%N] |} 1%Z)) _).
    unfold len. simpl. lia.
Defined.

(** ** [last] *)

(** C7: [last] returns not-found exactly when the store is empty;
    otherwise it returns the back handle and leaves the store as it is;
    after any history from the empty store (adds and removes, and
    evictions as well) that handle is the survivor with the greatest
    insertion index. *)
Theorem last_contract :
  (∀ s : agentStore,
     ∃ h found,
       last s = Some ((h, found), s) ∧
       (found = false ↔ agents s = []) ∧
       (found = true → ∃ front, agents s = front ++ [h])) ∧
  (∀ ops : list op,
     ∃ rets s,
       run newAgentStore ops = Some (rets, s) ∧
       (agents s ≠ [] →
          ∃ e, newest_in e (survivors ops) ∧ ops !! e.1 = Some (Add e.2) ∧
               last s = Some ((e.2, true), s))).
Proof.
  split.
  - intros s. destruct (agents s) as [|h front _] eqn:Hs using rev_ind.
    + exists nilAgent, false. rewrite last_empty by done. done.
    + exists h, true. rewrite (last_snoc_found s front h) by done.
      split_and!; [done| |by exists front].
      split; [done|]. intros Hnil. by destruct front.
  - intros ops.
    destruct (run_survivors ops) as (rets & s & Hrun & Hs & Hage & Horigin).
    exists rets, s. split; [done|]. intros Hne.
    destruct (survivors ops) as [|e es _] eqn:Hes using rev_ind.
    { by destruct Hne. }
    exists e. split_and!.
    + by eapply by_age_back.
    + apply Horigin, elem_of_app. right. apply list_elem_of_here.
    + apply last_snoc_found with (es.*2). by rewrite Hs, fmap_app.
Qed.

(** C7 on add 1, add 2, add 3, remove 3, add 4, remove 4: the survivors
    are the handles [1] and [2], and [last] returns [2], which the call at
    index [1] added, and keeps it. *)
Lemma last_contract_witness :
  ∃ rets s,
    run newAgentStore [Add 1%N; Add 2%N; Add 3%N; Remove 3%N; Add 4%N; Remove 4%N]
    = Some (rets, s) ∧
    (agents s ≠ [] →
       ∃ e, newest_in e (survivors [Add 1%N; Add 2%N; Add 3%N; Remove 3%N; Add 4%N; Remove 4%N]) ∧
            [Add 1%N; Add 2%N; Add 3%N; Remove 3%N; Add 4%N; Remove 4%N] !! e.1 = Some (Add e.2) ∧
            last s = Some ((e.2, true), s)).
Proof.
  exact (proj2 last_contract [Add 1%N; Add 2%N; Add 3%N; Remove 3%N; Add 4%N; Remove 4%N]).
Defined.

(** ** The scenarios of the specification, evaluated *)

Example Split_three_pieces :
  GoStrings.Split "abc123.cluster-a.example" dot = ["abc123"; "cluster-a"; "example"].
Proof. reflexivity. Qed.

Example store_scenario :
  run newAgentStore [Add 1%N; Add 2%N; PopLen 1; PopLen 1]
  = Some ([RetAdd; RetAdd; RetPopLen 1%N true; RetPopLen nilAgent false],
          {| agents := [2%N] |}).
Proof. reflexivity. Qed.

Example store_scenario_survivors :
  survivors [Add 1%N; Add 2%N; PopLen 1; PopLen 1] = [(1, 2%N)].
Proof. reflexivity. Qed.

Example remove_middle :
  remove {| agents := [4%N; 5%N; 6%N] |} 5%N = Some (true, {| agents := [4%N; 6%N] |}).
Proof. reflexivity. Qed.

Example tracker_scenario :
  publishAll NewConnectedProxies [Some ["p1"; "p2"]; Some ["p1"; "p2"]]
  = ({| ids := Some ["p1"; "p2"] |}, [notifyChange]).
Proof. reflexivity. Qed.

Example tracker_order_sensitive :
  updateProxyIDs {| ids := Some ["p1"; "p2"] |} (Some ["p2"; "p1"])
  = ({| ids := Some ["p2"; "p1"] |}, [notifyChange]).
Proof. reflexivity. Qed.

(** * Further properties of the agent store *)

Section StoreMore.
Implicit Types (s : agentStore) (h : AgentPtr).

Lemma store_eta s : {| agents := agents s |} = s.
Proof. by destruct s. Qed.

Lemma occurrences_app_cons h' l1 l2 h :
  h' ≠ h →
  length (filter (λ a, a = h') (l1 ++ (h :: l2)))
  = length (filter (λ a, a = h') (l1 ++ l2)).
Proof.
  intros Hne. rewrite !filter_app, !length_app.
  by rewrite (filter_cons_False _ h) by congruence.
Qed.

Lemma remove_sublist s h found s' :
  remove s h = Some (found, s') → agents s' `sublist_of` agents s.
Proof.
  destruct (remove_cases s h) as [(l1 & l2 & Hl & _ & ->)|[_ ->]];
    intros [= <- <-]; [|done].
  simpl. rewrite Hl. apply sublist_app; [done|]. by apply sublist_cons.
Qed.

Lemma poplen_sublist s (l : Z) r s' :
  poplen s l = Some (r, s') → agents s' `sublist_of` agents s.
Proof.
  destruct (poplen_cases s l) as [(_ & h & rest & Hs & ->)|[_ ->]];
    intros [= <- <-]; [|done].
  simpl. rewrite Hs. by apply sublist_cons.
Qed.

End StoreMore.

(** X1: removing a handle right after adding it gives the store back when
    the handle was not in it; when it was, the call removes the older
    occurrence and the one just added stays at the back. *)
Theorem remove_after_add :
  ∀ (s : agentStore) (h : AgentPtr),
    (h ∉ agents s → remove (add s h) h = Some (true, s)) ∧
    (∀ l1 l2, agents s = l1 ++ (h :: l2) → h ∉ l1 →
       remove (add s h) h = Some (true, {| agents := l1 ++ l2 ++ [h] |})).
Proof.
  intros s h. split.
  - intros Hh. unfold add.
    replace (agents s ++ [h]) with (agents s ++ (h :: [])) by done.
    rewrite remove_found by done. by rewrite app_nil_r, store_eta.
  - intros l1 l2 Hs Hh. unfold add. rewrite Hs, <-app_assoc. simpl.
    by rewrite remove_found.
Qed.

(** X1 on the stores [[4; 5]] (handle [6] is new) and [[4; 6; 5]] (handle
    [6] is already there). *)
Lemma remove_after_add_witness :
  remove (add {| agents := [4; 5]%N |} 6%N) 6%N = Some (true, {| agents := [4; 5]%N |}) ∧
  remove (add {| agents := [4; 6; 5]%N |} 6%N) 6%N
  = Some (true, {| agents := [4%N] ++ [5%N] ++ [6%N] |}).
Proof.
  split.
  - refine (proj1 (remove_after_add {| agents := [4; 5]%N |} 6%N) _).
    simpl. intros H. apply elem_of_cons in H as [H|H]; [discriminate H|].
    apply elem_of_cons in H as [H|H]; [discriminate H|].
    by apply elem_of_nil in H.
  - refine (proj2 (remove_after_add {| agents := [4; 6; 5]%N |} 6%N) [4%N] [5%N] _ _).
    + reflexivity.
    + intros H. apply elem_of_cons in H as [H|H]; [discriminate H|].
      by apply elem_of_nil in H.
Defined.

(** X2: [k] calls of [poplen l] in a row, with [0 ≤ l], pop the
    [min k (len - l)] oldest handles in their order and then return
    not-found; the store is never taken below [l] handles. *)
Theorem poplen_repeated :
  ∀ (s : agentStore) (l : Z) (k : nat),
    (0 ≤ l)%Z →
    let m := min k (length (agents s) - Z.to_nat l) in
    run s (replicate k (PopLen l))
    = Some (((λ a, RetPopLen a true) <$> take m (agents s))
              ++ replicate (k - m) (RetPopLen nilAgent false),
            {| agents := drop m (agents s) |}).
Proof.
  intros s l k Hl. cbv zeta. revert s. induction k as [|k IH]; intros s.
  { simpl. rewrite drop_0. by rewrite store_eta. }
  simpl run.
  destruct (poplen_cases s l) as [(Hlt & h & rest & Hs & ->)|[Hge ->]]; simpl.
  - rewrite IH. simpl. unfold len in Hlt. rewrite Hs in *. simpl in *.
    replace (S (length rest) - Z.to_nat l) with (S (length rest - Z.to_nat l)) by lia.
    done.
  - rewrite IH. simpl. unfold len in Hge.
    replace (length (agents s) - Z.to_nat l) with 0 by lia.
    rewrite !Nat.min_0_r. simpl. by rewrite Nat.sub_0_r.
Qed.

(** X2 on five handles with threshold [2]: four calls pop [1], [2], [3]
    and then find nothing to pop. *)
Lemma poplen_repeated_witness :
  run {| agents := [1; 2; 3; 4; 5]%N |} (replicate 4 (PopLen 2))
  = Some ([RetPopLen 1%N true; RetPopLen 2%N true; RetPopLen 3%N true;
           RetPopLen nilAgent false],
          {| agents := [4; 5]%N |}).
Proof.
  refine (poplen_repeated {| agents := [1; 2; 3; 4; 5]%N |} 2%Z 4 _). lia.
Defined.

(** X3: an eviction that leaves the store non-empty does not change what
    [last] returns. *)
Theorem poplen_keeps_last :
  ∀ (s s' : agentStore) (l : Z) (h : AgentPtr),
    poplen s l = Some ((h, true), s') →
    agents s' ≠ [] →
    ∃ newest, last s = Some ((newest, true), s) ∧
              last s' = Some ((newest, true), s').
Proof.
  intros s s' l h Hp Hne.
  destruct (poplen_cases s l) as [(_ & h0 & rest & Hs & Hp')|[_ Hp']];
    rewrite Hp' in Hp; [|discriminate Hp].
  injection Hp as -> <-. simpl in Hne.
  destruct rest as [|newest front _] using rev_ind; [done|].
  exists newest. split.
  - apply last_snoc_found with (h :: front). by rewrite Hs.
  - by apply last_snoc_found with front.
Qed.

(** X3 on the store [[1; 2; 3]] and the threshold [1]. *)
Lemma poplen_keeps_last_witness :
  ∃ newest,
    last {| agents := [1; 2; 3]%N |} = Some ((newest, true), {| agents := [1; 2; 3]%N |}) ∧
    last {| agents := [2; 3]%N |} = Some ((newest, true), {| agents := [2; 3]%N |}).
Proof.
  refine (poplen_keeps_last {| agents := [1; 2; 3]%N |} {| agents := [2; 3]%N |}
            1%Z 1%N _ _).
  - reflexivity.
  - discriminate.
Defined.

(** X4: the store keeps itself free of duplicates as long as no call adds
    a handle that is already stored: [remove] and [poplen] never create
    one. *)
Theorem store_no_duplicates :
  ∀ (s s' : agentStore) (o : op) (r : ret),
    NoDup (agents s) →
    (∀ h, o = Add h → h ∉ agents s) →
    step s o = Some (r, s') →
    NoDup (agents s').
Proof.
  intros s s' o r Hnd Hfresh Hstep. destruct o as [h|h|l]; simpl in Hstep.
  - injection Hstep as _ <-. simpl. apply NoDup_app. split_and!; [done| |apply NoDup_singleton].
    intros x Hx Hxh%list_elem_of_singleton. subst x. by apply (Hfresh h).
  - destruct (remove s h) as [[found s1]|] eqn:Hr; [|done]. simpl in Hstep.
    injection Hstep as _ <-.
    apply (sublist_NoDup (agents s1) (agents s)); [done|by eapply remove_sublist].
  - destruct (poplen s l) as [[[a found] s1]|] eqn:Hp; [|done]. simpl in Hstep.
    injection Hstep as _ <-.
    apply (sublist_NoDup (agents s1) (agents s)); [done|by eapply poplen_sublist].
Qed.

(** X4 on the store [[1; 2]] and the call [add 3]. *)
Lemma store_no_duplicates_witness : NoDup (agents {| agents := [1; 2; 3]%N |}).
Proof.
  refine (store_no_duplicates {| agents := [1; 2]%N |} _ (Add 3%N) RetAdd _ _ _).
  - simpl. apply NoDup_cons. split; [|apply NoDup_singleton].
    intros H%list_elem_of_singleton. discriminate H.
  - intros h [= <-]. simpl. intros H. apply elem_of_cons in H as [H|H]; [discriminate H|].
    apply list_elem_of_singleton in H. discriminate H.
  - reflexivity.
Defined.

(** X5: in a store without duplicates a handle that [remove] found is gone
    afterwards, and removing it again returns [false] and changes
    nothing. *)
Theorem remove_twice_without_duplicates :
  ∀ (s s1 : agentStore) (h : AgentPtr),
    NoDup (agents s) →
    remove s h = Some (true, s1) →
    (h ∉ agents s1) ∧ remove s1 h = Some (false, s1).
Proof.
  intros s s1 h Hnd Hr.
  destruct (remove_cases s h) as [(l1 & l2 & Hl & Hh & Hr')|[_ Hr']];
    rewrite Hr' in Hr; [|discriminate Hr].
  injection Hr as <-. simpl.
  assert (h ∉ l1 ++ l2) as Hout.
  { rewrite Hl in Hnd. apply NoDup_app in Hnd as (_ & _ & [Hh2 _]%NoDup_cons).
    intros [?|?]%elem_of_app; done. }
  split; [done|]. by apply remove_absent.
Qed.

(** X5 on the store [[1; 2; 3]] and the handle [2]. *)
Lemma remove_twice_without_duplicates_witness :
  (2%N ∉ agents {| agents := [1; 3]%N |}) ∧
  remove {| agents := [1; 3]%N |} 2%N = Some (false, {| agents := [1; 3]%N |}).
Proof.
  refine (remove_twice_without_duplicates {| agents := [1; 2; 3]%N |} _ 2%N _ _).
  - simpl. apply NoDup_cons. split.
    + intros H. apply elem_of_cons in H as [H|H]; [discriminate H|].
      apply list_elem_of_singleton in H. discriminate H.
    + apply NoDup_cons. split; [|apply NoDup_singleton].
      intros H%list_elem_of_singleton. discriminate H.
  - reflexivity.
Defined.

(** X6: [remove h] leaves every other handle alone: it occurs as often
    as before, and is in the store exactly if it was. *)
Theorem remove_other_handles :
  ∀ (s s' : agentStore) (h h' : AgentPtr) (found : bool),
    remove s h = Some (found, s') →
    h' ≠ h →
    occurrences h' s' = occurrences h' s ∧ (h' ∈ agents s' ↔ h' ∈ agents s).
Proof.
  intros s s' h h' found Hr Hne.
  destruct (remove_cases s h) as [(l1 & l2 & Hl & Hh & Hr')|[_ Hr']];
    rewrite Hr' in Hr; injection Hr as _ <-; [|done].
  unfold occurrences. simpl. rewrite Hl. split.
  - symmetry. by apply occurrences_app_cons.
  - rewrite !elem_of_app, elem_of_cons. split.
    + intros [H|H]; [by left|by right; right].
    + intros [H|[H|H]]; [by left|done|by right].
Qed.

(** X6 on the store [[5; 7; 5; 9]]: removing [5] keeps both the count and
    the presence of [7]. *)
Lemma remove_other_handles_witness :
  occurrences 7%N {| agents := [7; 5; 9]%N |} = occurrences 7%N {| agents := [5; 7; 5; 9]%N |} ∧
  (7%N ∈ agents {| agents := [7; 5; 9]%N |} ↔ 7%N ∈ agents {| agents := [5; 7; 5; 9]%N |}).
Proof.
  refine (remove_other_handles {| agents := [5; 7; 5; 9]%N |} _ 5%N 7%N true _ _).
  - reflexivity.
  - discriminate.
Defined.

(** X7: after [add h], [last] returns [h]; and [add] does not change which
    handle [poplen] evicts: a pop that succeeds on the store succeeds with
    the same handle on the store with [h] added. *)
Theorem add_then_last_and_poplen :
  ∀ (s : agentStore) (h : AgentPtr),
    last (add s h) = Some ((h, true), add s h) ∧
    (∀ (l : Z) (oldest : AgentPtr) (s' : agentStore),
       poplen s l = Some ((oldest, true), s') →
       poplen (add s h) l = Some ((oldest, true), add s' h)).
Proof.
  intros s h. split.
  - by apply last_snoc_found with (agents s).
  - intros l oldest s' Hp.
    destruct (poplen_cases s l) as [(Hl & h0 & rest & Hs & Hp')|[_ Hp']];
      rewrite Hp' in Hp; [|discriminate Hp].
    injection Hp as <- <-.
    apply poplen_found; [unfold add; simpl; by rewrite Hs|].
    rewrite len_add. lia.
Qed.

(** X7 on the store [[1; 2]], the handle [3] and the threshold [1]. *)
Lemma add_then_last_and_poplen_witness :
  poplen (add {| agents := [1; 2]%N |} 3%N) 1 = Some ((1%N, true), add {| agents := [2%N] |} 3%N).
Proof.
  refine (proj2 (add_then_last_and_poplen {| agents := [1; 2]%N |} 3%N)
            1%Z 1%N {| agents := [2%N] |} _).
  reflexivity.
Defined.

(** X8: every history of [add], [remove] and [poplen] calls runs to its
    end without a panic, and [len] moves by the adds, minus the removes
    that found their handle, minus the pops that returned one. *)
Theorem len_accounting :
  ∀ (ops : list op) (s : agentStore),
    ∃ rets s',
      run s ops = Some (rets, s') ∧
      len s' = (len s + Z.of_nat (adds ops)
                - Z.of_nat (removed rets) - Z.of_nat (popped rets))%Z.
Proof.
  induction ops as [|o ops IH]; intros s.
  { exists [], s. split; [done|]. unfold adds, removed, popped. simpl. lia. }
  destruct o as [h|h|l]; simpl.
  - destruct (IH (add s h)) as (rets & s' & -> & Hlen). simpl.
    eexists _, _. split; [done|]. rewrite Hlen, len_add. unfold adds, removed, popped.
    rewrite (filter_cons_True isAdd) by done.
    rewrite !(filter_cons_False _ RetAdd) by (simpl; auto). simpl length. lia.
  - destruct (remove_len s h) as (found & s1 & -> & Hlen1). simpl.
    destruct (IH s1) as (rets & s' & -> & Hlen). simpl.
    eexists _, _. split; [done|]. rewrite Hlen, Hlen1. unfold adds, removed, popped.
    rewrite (filter_cons_False isAdd) by (simpl; auto).
    rewrite (filter_cons_False isPopped) by (simpl; auto).
    destruct found.
    + rewrite (filter_cons_True isRemoved) by done. simpl length. lia.
    + rewrite (filter_cons_False isRemoved) by (simpl; auto). lia.
  - destruct (poplen_cases s l) as [(Hl & h & rest & Hs & ->)|[Hl ->]]; simpl.
    + destruct (IH {| agents := rest |}) as (rets & s' & -> & Hlen). simpl.
      eexists _, _. split; [done|]. rewrite Hlen. unfold adds, removed, popped, len.
      rewrite Hs. simpl agents.
      rewrite (filter_cons_False isAdd) by (simpl; auto).
      rewrite (filter_cons_False isRemoved) by (simpl; auto).
      rewrite (filter_cons_True isPopped) by done. simpl length. lia.
    + destruct (IH s) as (rets & s' & -> & Hlen). simpl.
      eexists _, _. split; [done|]. rewrite Hlen. unfold adds, removed, popped.
      rewrite (filter_cons_False isAdd) by (simpl; auto).
      rewrite (filter_cons_False isRemoved) by (simpl; auto).
      rewrite (filter_cons_False isPopped) by (simpl; auto). lia.
Qed.

(** X9: the store never holds a handle that was not added and never
    reorders: after any history its content is a subsequence of what it
    held before followed by the added handles, in the order of the
    [add] calls. *)
Theorem store_subsequence_of_added :
  ∀ (ops : list op) (s : agentStore),
    ∃ rets s',
      run s ops = Some (rets, s') ∧
      agents s' `sublist_of` agents s ++ added ops.
Proof.
  induction ops as [|o ops IH]; intros s.
  { exists [], s. split; [done|]. unfold added. simpl. by rewrite app_nil_r. }
  destruct o as [h|h|l]; simpl.
  - destruct (IH (add s h)) as (rets & s' & -> & Hsub). simpl.
    eexists _, _. split; [done|]. unfold added in *. simpl in *.
    by rewrite <-app_assoc in Hsub.
  - destruct (remove s h) as [[found s1]|] eqn:Hr; simpl.
    2: { destruct (remove_cases s h) as [(? & ? & _ & _ & ?)|[_ ?]]; congruence. }
    destruct (IH s1) as (rets & s' & -> & Hsub). simpl.
    eexists _, _. split; [done|]. etrans; [exact Hsub|].
    apply sublist_app; [|done]. by eapply remove_sublist.
  - destruct (poplen s l) as [[[a found] s1]|] eqn:Hp; simpl.
    2: { destruct (poplen_cases s l) as [(_ & ? & ? & _ & ?)|[_ ?]]; congruence. }
    destruct (IH s1) as (rets & s' & -> & Hsub). simpl.
    eexists _, _. split; [done|]. etrans; [exact Hsub|].
    apply sublist_app; [|done]. by eapply poplen_sublist.
Qed.

(** * Further properties of the tracker *)

Lemma updateProxyIDs_decide p new :
  updateProxyIDs p new
  = if decide (ids p = new :> option (list string)) then (p, [])
    else ({| ids := new |}, [notifyChange]).
Proof.
  unfold updateProxyIDs. destruct (GoCmp.Equal (ids p) new) eqn:E.
  - apply Equal_eq in E. by rewrite decide_True.
  - rewrite decide_False; [done|]. intros H%Equal_eq. congruence.
Qed.

(** X10: a call starts the notification exactly when its argument differs
    from the stored slice (in nil-ness, length, an element or the order),
    and never more than one; a sequence of calls starts as many
    notifications as it has calls that change the stored slice. *)
Theorem notifications_started :
  (∀ (p : ConnectedProxies) (new : slice string),
     ((updateProxyIDs p new).2 = [notifyChange] ↔ ids p ≠ new) ∧
     ((updateProxyIDs p new).2 = [] ↔ ids p = new)) ∧
  (∀ (calls : list (slice string)) (p : ConnectedProxies),
     length (publishAll p calls).2 = changes (ids p) calls ∧
     length (publishAll p calls).2 ≤ length calls).
Proof.
  split.
  - intros p new. rewrite updateProxyIDs_decide.
    case_decide; simpl; split; split; intros;
      first [done | discriminate | exfalso; auto].
  - induction calls as [|new calls IH]; intros p; simpl; [done|].
    pose proof (updateProxyIDs_stored p new) as Hst.
    rewrite updateProxyIDs_decide in *.
    case_decide as Heq; simpl in *.
    + destruct (IH p) as [IH1 IH2]. destruct (publishAll p calls) as [p2 g2].
      simpl in *. rewrite Heq in IH1. split; [done|lia].
    + destruct (IH {| ids := new |}) as [IH1 IH2].
      destruct (publishAll {| ids := new |} calls) as [p2 g2].
      simpl in *. split; lia.
Qed.

(** * Further properties of the identifier extraction *)

Section ExtractionMore.
Import GoStrings.

Lemma ContainsByte_app a b sep :
  ContainsByte (a +:+ b) sep = ContainsByte a sep || ContainsByte b sep.
Proof.
  induction a as [|c a IH]; [done|].
  change (String c a +:+ b) with (String c (a +:+ b)). simpl.
  by rewrite IH, orb_assoc.
Qed.

(** [Split] cuts at the first separator. *)
Lemma Split_first a b sep :
  ContainsByte a sep = false →
  Split (a +:+ String sep b) sep = a :: Split b sep.
Proof.
  induction a as [|c a IH]; simpl.
  - intros _. change ("" +:+ String sep b) with (String sep b). simpl.
    by rewrite Ascii.eqb_refl.
  - intros [Hc Ha]%orb_false_elim.
    change (String c a +:+ String sep b) with (String c (a +:+ String sep b)).
    simpl. by rewrite Hc, (IH Ha).
Qed.

End ExtractionMore.

(** X11: the identifier never contains a ['.'], it is a prefix of the
    first principal, and it depends on the first principal only. *)
Theorem getIDFromPrincipals_shape :
  ∀ (p : string) (rest : list string),
    ∃ id suffix,
      getIDFromPrincipals (p :: rest) = Some (id, true) ∧
      GoStrings.ContainsByte id dot = false ∧
      p = id +:+ suffix ∧
      getIDFromPrincipals [p] = Some (id, true).
Proof.
  intros p rest. rewrite !getIDFromPrincipals_cons.
  destruct (GoStrings.ContainsByte p dot) eqn:Hdot.
  - destruct (Split_present _ _ Hdot) as (a & b & pieces & Hp & Ha & HS & _).
    exists a, (String dot b). by rewrite HS.
  - exists p, "". split_and!; [done..| |done].
    clear. induction p as [|c p IH]; [done|].
    change (String c p +:+ "") with (String c (p +:+ "")). by rewrite <-IH.
Qed.

(** X12: a first principal of the form [<id>.<cluster-name>], with no
    ['.'] in [<id>], gives back [<id>], whatever the cluster name (it may
    be empty or contain dots) and whatever the other principals. *)
Theorem getIDFromPrincipals_uuid_dot_cluster :
  ∀ (id cluster : string) (rest : list string),
    GoStrings.ContainsByte id dot = false →
    getIDFromPrincipals ((id +:+ String dot cluster) :: rest) = Some (id, true).
Proof.
  intros id cluster rest Hid. rewrite getIDFromPrincipals_cons.
  rewrite ContainsByte_app, Hid. simpl.
  by rewrite (Split_first _ _ _ Hid).
Qed.

(** X12 at the principal ["abc123.cluster-a.example"]. *)
Lemma getIDFromPrincipals_uuid_dot_cluster_witness :
  getIDFromPrincipals ["abc123.cluster-a.example"; "other"] = Some ("abc123", true).
Proof.
  refine (getIDFromPrincipals_uuid_dot_cluster "abc123" "cluster-a.example" ["other"] _).
  reflexivity.
Defined.

(** X13: extraction is idempotent: the identifier extracted from a list,
    presented as the only principal, is extracted unchanged. *)
Theorem getIDFromPrincipals_idempotent :
  ∀ (principals : list string) (id : string),
    getIDFromPrincipals principals = Some (id, true) →
    getIDFromPrincipals [id] = Some (id, true).
Proof.
  intros [|p rest] id H; [discriminate H|].
  destruct (getIDFromPrincipals_shape p rest) as (id' & suffix & H' & Hdot & _ & _).
  rewrite H' in H. injection H as ->.
  rewrite getIDFromPrincipals_cons. by rewrite Hdot.
Qed.

(** X13 at the principals ["abc123.cluster-a"; "other"]. *)
Lemma getIDFromPrincipals_idempotent_witness :
  getIDFromPrincipals ["abc123"] = Some ("abc123", true).
Proof.
  refine (getIDFromPrincipals_idempotent ["abc123.cluster-a"; "other"] "abc123" _).
  reflexivity.
Defined.

(** * Resource URIs *)

Section AppendFacts.

Lemma append_assoc (a b c : string) : (a +:+ b) +:+ c = a +:+ (b +:+ c).
Proof.
  induction a as [|x a IH]; [done|].
  change ((String x a +:+ b) +:+ c) with (String x ((a +:+ b) +:+ c)).
  by rewrite IH.
Qed.

Lemma append_inj_r (p a b : string) : p +:+ a = p +:+ b → a = b.
Proof.
  induction p as [|x p IH]; [done|].
  change (String x p +:+ a) with (String x (p +:+ a)).
  change (String x p +:+ b) with (String x (p +:+ b)).
  intros [= H]. by apply IH.
Qed.

Lemma prefix_app (p s : string) :
  String.prefix p s = true ↔ ∃ rest, s = p +:+ rest.
Proof.
  revert s. induction p as [|x p IH]; intros [|y s]; simpl.
  - split; [by exists ""|done].
  - split; [by exists (String y s)|done].
  - split; [done|]. by intros [rest [=]].
  - destruct (Ascii.ascii_dec x y) as [->|Hne].
    + rewrite IH. split.
      * intros [rest ->]. by exists rest.
      * intros [rest H]. exists rest.
        change (String y p +:+ rest) with (String y (p +:+ rest)) in H.
        by injection H.
    + split; [done|]. intros [rest H].
      change (String x p +:+ rest) with (String x (p +:+ rest)) in H.
      injection H as H _. congruence.
Qed.

End AppendFacts.

(** X14: under one parent URI, different names give different URIs, for
    each kind of segment; names are not escaped, so a server id that
    contains ["/servers/"] gives the URI of a server nested under a
    server; a server of a leaf cluster has the path
    [/clusters/<root>/leaves/<leaf>/servers/<id>]. *)
Theorem uri_append_laws :
  (∀ (r : Uri.ResourceURI) (a b : string),
     (Uri.AppendServer r a = Uri.AppendServer r b → a = b) ∧
     (Uri.AppendLeafCluster r a = Uri.AppendLeafCluster r b → a = b) ∧
     (Uri.AppendKube r a = Uri.AppendKube r b → a = b) ∧
     (Uri.AppendDB r a = Uri.AppendDB r b → a = b) ∧
     (Uri.AddGateway r a = Uri.AddGateway r b → a = b) ∧
     (Uri.AppendApp r a = Uri.AppendApp r b → a = b)) ∧
  (∀ (r : Uri.ResourceURI) (a b : string),
     Uri.AppendServer r (a +:+ "/servers/" +:+ b)
     = Uri.AppendServer (Uri.AppendServer r a) b) ∧
  (∀ root leaf id : string,
     Uri.ToString (Uri.AppendServer (Uri.AppendLeafCluster (Uri.NewClusterURI root) leaf) id)
     = "/clusters/" +:+ root +:+ "/leaves/" +:+ leaf +:+ "/servers/" +:+ id).
Proof.
  split_and!.
  - intros r a b.
    split_and!; intros [= H]; apply append_inj_r in H; by apply append_inj_r in H.
  - intros r a b. unfold Uri.AppendServer. simpl. f_equal.
    by rewrite !append_assoc.
  - intros root leaf id. unfold Uri.ToString. simpl.
    by rewrite !append_assoc.
Qed.

(** * The review bot *)

(** X15: [isBackport] holds exactly for the base branches that start with
    ["branch/v"]; nothing has to follow the prefix, and the comparison is
    case-sensitive. *)
Theorem isBackport_iff_prefix :
  (∀ unsafeBase : string,
     Bot.isBackport unsafeBase = true ↔ ∃ rest, unsafeBase = "branch/v" +:+ rest) ∧
  Bot.isBackport "branch/v" = true ∧
  Bot.isBackport "Branch/v9" = false ∧
  Bot.isBackport "master" = false.
Proof.
  split_and!; try reflexivity.
  intros unsafeBase. unfold Bot.isBackport. rewrite <-prefix_app.
  by destruct (String.prefix "branch/v" unsafeBase).
Qed.

(** * gRPC error translation *)

Section ErrorTranslation.
Import Apiserver.



End ErrorTranslation.




(** * Network restrictions as text *)

Section WriterFacts.
Import Tctl.
Context {W E : Type}.
Variable Write : W → string → W * option E.
Variable Wrap : E → E.

(** Once a [Write] has failed nothing more is written. *)
Lemma write_after_error (out : writer) (s : string) :
  err out ≠ None → write Write out s = out.
Proof. unfold write. by destruct (err out). Qed.

Lemma writeAll_after_error (out : writer) (pieces : list string) :
  err out ≠ None → foldl (write Write) out pieces = out.
Proof.
  intros Herr. induction pieces as [|s pieces IH]; simpl; [done|].
  by rewrite write_after_error.
Qed.

Lemma writeList_pieces (conds : list AddressCondition) (out : writer) :
  writeList Write conds out = foldl (write Write) out (listPieces conds).
Proof.
  revert out. induction conds as [|a conds IH]; intros out; simpl; [done|].
  by rewrite IH.
Qed.

(** [writeText] writes its pieces in order through [write]. *)
Lemma writeText_pieces (netRestricts : NetworkRestrictions) (w0 : W) :
  writeText Write Wrap netRestricts w0
  = let out := foldl (write Write) {| w := w0; err := None |} (textPieces netRestricts) in
    (w out, Wrap <$> err out).
Proof.
  unfold writeText, textPieces. simpl.
  by rewrite !writeList_pieces, !foldl_app.
Qed.

End WriterFacts.

(** X18: [writeText] stops at the first failing [Write]: when the pieces
    before [p] are written without error and the [Write] of [p] fails with
    [e], the writer is left as that failing call left it, no later piece
    reaches it, and [writeText] returns [e] wrapped. *)
Theorem writeText_first_error :
  ∀ (W E : Type) (Write : W → string → W * option E) (Wrap : E → E)
    (netRestricts : Tctl.NetworkRestrictions) (w0 w1 w2 : W) (e : E)
    (before after : list string) (p : string),
    textPieces netRestricts = before ++ p :: after →
    foldl (Tctl.write Write) {| Tctl.w := w0; Tctl.err := None |} before
    = {| Tctl.w := w1; Tctl.err := None |} →
    Write w1 p = (w2, Some e) →
    Tctl.writeText Write Wrap netRestricts w0 = (w2, Some (Wrap e)).
Proof.
  intros W E Write Wrap netRestricts w0 w1 w2 e before after p Hp Hbefore Hfail.
  rewrite writeText_pieces, Hp, foldl_app, Hbefore. simpl.
  assert (Tctl.write Write {| Tctl.w := w1; Tctl.err := None |} p
          = {| Tctl.w := w2; Tctl.err := Some e |}) as ->.
  { unfold Tctl.write. simpl. by rewrite Hfail. }
  by rewrite writeAll_after_error.
Qed.

(** X18 with a writer that records what it is given and fails at the
    string ["bad"]: the allow list is cut after ["bad"], and neither the
    line end after it nor the deny list is written. *)
Lemma writeText_first_error_witness :
  let Write := λ (log : list string) (s : string),
    (log ++ [s], if String.eqb s "bad" then Some tt else None) in
  Tctl.writeText Write id
    {| Tctl.GetAllow := [{| Tctl.CIDR := "10.0.0.0/8" |}; {| Tctl.CIDR := "bad" |}];
       Tctl.GetDeny := [{| Tctl.CIDR := "192.168.0.0/16" |}] |} []
  = (["ALLOW" +:+ String "010" ""; "10.0.0.0/8"; String "010" ""; "bad"], Some (id tt)).
Proof.
  intros Write.
  refine (writeText_first_error (list string) unit Write id _ []
            ["ALLOW" +:+ String "010" ""; "10.0.0.0/8"; String "010" ""]
            ["ALLOW" +:+ String "010" ""; "10.0.0.0/8"; String "010" ""; "bad"]
            tt
            ["ALLOW" +:+ String "010" ""; "10.0.0.0/8"; String "010" ""]
            [String "010" ""; String "010" ("DENY" +:+ String "010" "");
             "192.168.0.0/16"; String "010" ""]
            "bad" _ _ _); reflexivity.
Defined.

Section BufferFacts.
Import Tctl.
Context {E : Type}.

Lemma write_buffer (buf s : string) :
  write (bufferWrite (E:=E)) {| w := buf; err := None |} s
  = {| w := buf +:+ s; err := None |}.
Proof. reflexivity. Qed.

Lemma writeList_buffer (conds : list AddressCondition) (buf : string) :
  writeList (bufferWrite (E:=E)) conds {| w := buf; err := None |}
  = {| w := buf +:+ listText conds; err := None |}.
Proof.
  revert buf. induction conds as [|a conds IH]; intros buf; simpl.
  - f_equal. induction buf as [|c buf IHb]; [done|].
    change (String c buf +:+ "") with (String c (buf +:+ "")). by rewrite <-IHb.
  - rewrite !write_buffer, IH. f_equal. by rewrite !append_assoc.
Qed.

End BufferFacts.

(** X19: written to a buffer, the text is the line [ALLOW], the allowed
    CIDRs one per line, an empty line, the line [DENY] and the denied
    CIDRs one per line, appended to what the buffer held; the error
    returned is [nil]. *)
Theorem writeText_buffer :
  ∀ (E : Type) (Wrap : E → E) (netRestricts : Tctl.NetworkRestrictions) (buf : string),
    Tctl.writeText (Tctl.bufferWrite (E:=E)) Wrap netRestricts buf
    = (buf +:+ "ALLOW" +:+ String "010" (Tctl.listText (Tctl.GetAllow netRestricts))
           +:+ String "010" ("DENY" +:+ String "010" (Tctl.listText (Tctl.GetDeny netRestricts))),
       None).
Proof.
  intros E Wrap netRestricts buf. unfold Tctl.writeText.
  rewrite write_buffer, writeList_buffer, write_buffer, writeList_buffer. simpl.
  f_equal. by rewrite !append_assoc.
Qed.

(** * Table cells *)

Section JoinFacts.
Import GoStrings.

Lemma foldl_snoc_map {A B : Type} (f : A → B) (l : list A) (acc : list B) :
  foldl (λ acc x, acc ++ [f x]) acc l = acc ++ map f l.
Proof.
  revert acc. induction l as [|x l IH]; intros acc; simpl.
  - by rewrite app_nil_r.
  - by rewrite IH, <-app_assoc.
Qed.

Lemma append_nonempty_r (a : string) (c : ascii) (b : string) :
  a +:+ String c b ≠ "".
Proof. by destruct a. Qed.

Lemma Join_head_nonempty (a : string) (rest : list string) (sep : string) :
  a ≠ "" → Join (a :: rest) sep ≠ "".
Proof.
  intros Ha. simpl. destruct rest; [done|].
  destruct a as [|c a]; [done|]. discriminate.
Qed.

(** With a separator that occurs in no element, splitting undoes joining. *)
Lemma Split_Join (elems : list string) (sep : ascii) :
  elems ≠ [] →
  Forall (λ s, ContainsByte s sep = false) elems →
  Split (Join elems (String sep "")) sep = elems.
Proof.
  intros Hne Hall. induction Hall as [|a rest Ha Hrest IH]; [done|].
  simpl. destruct rest as [|b rest].
  - by apply Split_absent.
  - change (a +:+ String sep "" +:+ Join (b :: rest) (String sep ""))
      with (a +:+ String sep (Join (b :: rest) (String sep ""))).
    rewrite Split_first by done. f_equal. by apply IH.
Qed.

End JoinFacts.

(** X20: the cells [printActions] and [formatTeamsToLogins] render are
    empty exactly when the list of rules, or of team mappings, is empty:
    a rule without resources and verbs still shows as [:]. *)
Theorem formatted_cell_empty_iff :
  (∀ rules : list Tctl.Rule, Tctl.printActions rules = "" ↔ rules = []) ∧
  (∀ mappings : list Tctl.TeamMapping,
     Tctl.formatTeamsToLogins mappings = "" ↔ mappings = []) ∧
  Tctl.printActions [{| Tctl.Resources := []; Tctl.Verbs := [] |}] = ":".
Proof.
  split_and!; [| |reflexivity].
  - intros rules. unfold Tctl.printActions. rewrite foldl_snoc_map. simpl.
    destruct rules as [|r rules]; [done|]. split; [|done].
    intros H. exfalso. revert H. apply Join_head_nonempty, append_nonempty_r.
  - intros mappings. unfold Tctl.formatTeamsToLogins. rewrite foldl_snoc_map. simpl.
    destruct mappings as [|m mappings]; [done|]. split; [|done].
    intros H. exfalso. revert H. by apply Join_head_nonempty.
Qed.
